(** * aiscrape: anchor-based content extraction and its orchestration

    A shallow embedding of [aiscrape.py].  Python [str] values are lists of
    characters, indices are Python integers ([Z]), with the wrap-around and
    clamping rules of [str.find] and of slicing written out.  Calls to
    external collaborators ([requests], [BeautifulSoup], the OpenAI client,
    [json]) are taken from an environment record and logged in a trace, so
    that the number and order of the calls made by [scrape] can be stated. *)

From Stdlib Require Import String Ascii ZArith List Bool Lia.
From Equations Require Import Equations.
Import ListNotations.

Local Open Scope Z_scope.

(** ** Python strings *)

Module PyStr.

Definition str := list ascii.

Definition lit (s : string) : str := list_ascii_of_string s.

Definition len (s : str) : Z := Z.of_nat (length s).

(** [starts_with sub s]: [sub] is matched, character by character, at the
    head of [s]. *)
Fixpoint starts_with (sub s : str) : bool :=
  match sub, s with
  | [], _ => true
  | _ :: _, [] => false
  | a :: sub', b :: s' => Ascii.eqb a b && starts_with sub' s'
  end.

(** Left-to-right search: the lowest position, counted from [pos], at which
    [sub] is matched in [s]; [-1] when there is none. *)
Fixpoint scan (sub s : str) (pos : Z) : Z :=
  if starts_with sub s then pos
  else match s with
       | [] => -1
       | _ :: s' => scan sub s' (pos + 1)
       end.

(** [s.find(sub, start)].  A negative [start] counts from the end of [s]
    and is clamped at 0; when fewer than [len sub] characters remain from
    [start] on the answer is [-1], also for an empty [sub]. *)
Definition find (s sub : str) (start : Z) : Z :=
  let n := len s in
  let start := if start <? 0 then Z.max 0 (start + n) else start in
  if n - start <? len sub then -1
  else scan sub (skipn (Z.to_nat start) s) start.

(** Index adjustment of a slice bound. *)
Definition clamp_index (n i : Z) : Z :=
  if i <? 0 then Z.max 0 (i + n) else Z.min i n.

(** [s[lo:hi]]. *)
Definition slice (s : str) (lo hi : Z) : str :=
  let lo' := clamp_index (len s) lo in
  let hi' := clamp_index (len s) hi in
  firstn (Z.to_nat (hi' - lo')) (skipn (Z.to_nat lo') s).

(** [s[lo:]]. *)
Definition slice_from (s : str) (lo : Z) : str :=
  skipn (Z.to_nat (clamp_index (len s) lo)) s.

End PyStr.

Import PyStr.

(** ** The extractor *)

Definition extract_content (text begin end_ : str) : option str :=
  let start_index := find text begin 0 in
  if start_index =? -1 then None
  else
    let start_index := start_index + len begin in
    let end_index := find text end_ start_index in
    if end_index =? -1 then Some (slice_from text (start_index - len begin))
    else Some (slice text (start_index - len begin) (end_index + len end_)).

(** ** Effects: exceptions and the trace of calls *)

(** The exceptions the collaborators raise, each with its message. *)
Inductive exn : Type :=
| HTTPError (msg : str)
| ConnectionError (msg : str)
| Timeout (msg : str)
| RequestException (msg : str)
| OpenAIError (msg : str)
| JSONDecodeError (msg : str)
| KeyError (key : str)
| IndexError (msg : str).

(** What a run does that an observer can see or count. *)
Inductive event : Type :=
| EvGet (url : str)                    (* requests.get(url) *)
| EvOracle (model text : str)          (* client.chat.completions.create *)
| EvExtract (text begin end_ : str)    (* extract_content(text, begin, end) *)
| EvPrint (line : str).                (* print(line) *)

Definition trace := list event.

(** A computation logs its events and either raises or returns. *)
Definition M (A : Type) : Type := trace * (exn + A).

Definition ret {A} (a : A) : M A := ([], inr a).

Definition raise {A} (e : exn) : M A := ([], inl e).

Definition bind {A B} (m : M A) (k : A -> M B) : M B :=
  match m with
  | (t1, inl e) => (t1, inl e)
  | (t1, inr a) => let '(t2, r) := k a in (t1 ++ t2, r)
  end.

Definition emit (ev : event) : M unit := ([ev], inr tt).

Definition lift {A} (r : exn + A) : M A := ([], r).

Declare Scope py_scope.
Delimit Scope py_scope with py.
Notation "x <- m ;; k" := (bind m (fun x => k))
  (at level 61, m at next level, right associativity) : py_scope.
Notation "' p <- m ;; k" := (bind m (fun x => let p := x in k))
  (at level 61, p pattern, m at next level, right associativity) : py_scope.
Notation "m ;; k" := (bind m (fun _ => k))
  (at level 61, right associativity) : py_scope.
Local Open Scope py_scope.

Definition events {A} (m : M A) : trace := fst m.
Definition outcome {A} (m : M A) : exn + A := snd m.

(** ** The collaborators *)

Record response : Type := {
  status_code : Z;
  resp_text : str
}.

(** The outside world of one run: the answers of the HTTP library, of the
    HTML parser, of the model service and of the JSON decoder. *)
Record env : Type := {
  (* OpenAI(): the client constructor, which may raise *)
  openai_client : option exn;
  (* requests.get(url) *)
  requests_get : str -> exn + response;
  (* response.raise_for_status() *)
  raise_for_status : response -> option exn;
  (* BeautifulSoup(html, "html.parser").get_text(separator=" ", strip=True) *)
  get_text : str -> str;
  (* client.chat.completions.create(...).choices[0].message.content *)
  chat_completion : str -> str -> exn + str;
  (* data = json.loads(content); data["BEGIN"], data["END"] *)
  json_begin_end : str -> exn + (str * str)
}.

Definition check (r : option exn) : M unit :=
  match r with
  | Some e => raise e
  | None => ret tt
  end.

(** ** The program *)

Record AIScrape : Type := { model : str }.

Definition AIScrape_init (w : env) (kw_model : option str) : M AIScrape :=
  check (openai_client w) ;;
  ret {| model := match kw_model with
                  | Some m => m
                  | None => lit "gpt-3.5-turbo"
                  end |}.

Definition get_url_text (w : env) (url : str) : M str :=
  emit (EvGet url) ;;
  response <- lift (requests_get w url) ;;
  check (raise_for_status w response) ;;
  ret (get_text w (resp_text response)).

Definition _begin_end (w : env) (self : AIScrape) (text : str) : M (str * str) :=
  emit (EvOracle (model self) text) ;;
  content <- lift (chat_completion w (model self) text) ;;
  lift (json_begin_end w content).

(** The retry loop of [scrape]:
    [while content is None and retries >= 0]. *)
Equations? scrape_loop (text begin end_ : str) (content : option str) (retries : Z)
  : M (option str) by wf (Z.to_nat (retries + 1)) lt :=
  scrape_loop text begin end_ (Some c) retries := ret (Some c);
  scrape_loop text begin end_ None retries with Z_le_gt_dec 0 retries => {
    | left _ :=
        emit (EvExtract text begin end_) ;;
        scrape_loop text begin end_ (extract_content text begin end_) (retries - 1);
    | right _ := ret None }.
Proof. lia. Qed.

Definition scrape (w : env) (self : AIScrape) (url : str) (retries : Z)
  : M (option str) :=
  text <- get_url_text w url ;;
  '(begin, end_) <- _begin_end w self text ;;
  let content := None in
  let retries := Z.min 0 retries in
  scrape_loop text begin end_ content retries.

Definition print (line : str) : M unit := emit (EvPrint line).

(** [main()], with [sys.argv] as argument; the result is the value of its
    [return], [None] when the function falls off its end. *)
Definition main (w : env) (argv : list str) : M (option Z) :=
  aiscrape <- AIScrape_init w None ;;
  match nth_error argv 1 with
  | None =>
      match nth_error argv 0 with
      | None => raise (IndexError (lit "list index out of range"))
      | Some argv0 =>
          print (lit "Usage: " ++ argv0 ++ lit " [url]") ;;
          ret (Some 1)
      end
  | Some url =>
      content <- scrape w aiscrape url 3 ;;
      match content with
      | None =>
          print (lit "Failed to extract content url: " ++ url) ;;
          ret (Some 2)
      | Some c =>
          print c ;;
          ret None
      end
  end.

(** The file run as a script: [if __name__ == "__main__": main()].  The
    value of [main()] is an expression statement, it is dropped; the
    interpreter exits with status 0 when the script runs to its end and
    with status 1 on an uncaught exception. *)
Definition script (w : env) (argv : list str) : trace * Z :=
  match main w argv with
  | (t, inl _) => (t, 1)
  | (t, inr _) => (t, 0)
  end.

(** ** Observations on traces *)

Definition is_extract (ev : event) : bool :=
  match ev with EvExtract _ _ _ => true | _ => false end.
Definition is_get (ev : event) : bool :=
  match ev with EvGet _ => true | _ => false end.
Definition is_oracle (ev : event) : bool :=
  match ev with EvOracle _ _ => true | _ => false end.

Definition count (p : event -> bool) (t : trace) : Z :=
  Z.of_nat (length (filter p t)).

Definition attempts (t : trace) : Z := count is_extract t.
Definition fetches (t : trace) : Z := count is_get t.
Definition oracle_calls (t : trace) : Z := count is_oracle t.

Definition printed (t : trace) : list str :=
  flat_map (fun ev => match ev with EvPrint l => [l] | _ => [] end) t.

(** ** Occurrences, the vocabulary of the specification *)

(** [sub] occurs in [s] at index [i]: [s] is [pre ++ sub ++ post] with
    [pre] of length [i]. *)
Definition occurs_at (sub s : str) (i : Z) : Prop :=
  exists pre post, s = pre ++ sub ++ post /\ len pre = i.

Definition occurs (sub s : str) : Prop := exists i, occurs_at sub s i.

(** [i] is the lowest index not below [start] at which [sub] occurs. *)
Definition first_occ (sub s : str) (start i : Z) : Prop :=
  start <= i /\ occurs_at sub s i /\
  forall j, start <= j < i -> ~ occurs_at sub s j.

Definition is_prefix (p s : str) : Prop := exists x, s = p ++ x.
Definition is_suffix (q s : str) : Prop := exists x, s = x ++ q.

(** The executable form of [occurs_at]. *)
Definition occurs_atb (sub s : str) (i : Z) : bool :=
  (0 <=? i) && (i <=? len s) && starts_with sub (skipn (Z.to_nat i) s).

(** The three ways out of [extract_content]. *)
Inductive extract_case (text begin end_ : str) : option str -> Prop :=
| ExNoBegin :
    ~ occurs begin text ->
    extract_case text begin end_ None
| ExNoEnd i :
    first_occ begin text 0 i ->
    (forall k, i + len begin <= k -> ~ occurs_at end_ text k) ->
    extract_case text begin end_ (Some (slice_from text i))
| ExBoth i j :
    first_occ begin text 0 i ->
    first_occ end_ text (i + len begin) j ->
    extract_case text begin end_ (Some (slice text i (j + len end_))).

(** ** A concrete world, for runs *)

Definition page : str :=
  lit "Header menu Home About START Hello world END Footer copyright".

Definition demo_env (anchors : str * str) : env := {|
  openai_client := None;
  requests_get := fun _ => inr {| status_code := 200; resp_text := page |};
  raise_for_status := fun r =>
    if (400 <=? status_code r) && (status_code r <? 600)
    then Some (HTTPError (lit "error status")) else None;
  get_text := fun html => html;
  chat_completion := fun _ _ => inr (lit "{}");
  json_begin_end := fun _ => inr anchors
|}.

(** A world in which the connection fails. *)
Definition offline_env : env := {|
  openai_client := None;
  requests_get := fun _ => inl (ConnectionError (lit "unreachable"));
  raise_for_status := fun _ => None;
  get_text := fun html => html;
  chat_completion := fun _ _ => inr (lit "{}");
  json_begin_end := fun _ => inr ([], [])
|}.

Definition gpt : AIScrape := {| model := lit "gpt-3.5-turbo" |}.

(** * Properties *)

(** ** Strings *)

Lemma len_nonneg (s : str) : 0 <= len s.
Proof. unfold len. lia. Qed.

Lemma len_app (a b : str) : len (a ++ b) = len a + len b.
Proof. unfold len. rewrite length_app. lia. Qed.

Lemma starts_with_iff (sub s : str) :
  starts_with sub s = true <-> is_prefix sub s.
Proof.
  revert s. induction sub as [|a sub IH]; intros s; simpl.
  - split; [intros _; exists s; reflexivity | reflexivity].
  - destruct s as [|b s].
    + split; [discriminate | intros [x Hx]; discriminate].
    + rewrite andb_true_iff, Ascii.eqb_eq, IH. split.
      * intros [-> [x ->]]. exists x. reflexivity.
      * intros [x Hx]. injection Hx as -> ->. split; [reflexivity | exists x; reflexivity].
Qed.

Lemma occurs_at_iff (sub s : str) (i : Z) :
  occurs_at sub s i <-> occurs_atb sub s i = true.
Proof.
  unfold occurs_atb. rewrite !andb_true_iff, Z.leb_le, Z.leb_le, starts_with_iff.
  split.
  - intros (pre & post & -> & <-). unfold len. rewrite Nat2Z.id.
    rewrite skipn_app, skipn_all, Nat.sub_diag. simpl.
    rewrite length_app. split; [lia | exists post; reflexivity].
  - intros [[H0 Hn] [post Hpost]].
    exists (firstn (Z.to_nat i) s), post. split.
    + rewrite <- Hpost. symmetry. apply firstn_skipn.
    + unfold len in *. rewrite length_firstn. lia.
Qed.

Lemma occurs_at_bounds (sub s : str) (i : Z) :
  occurs_at sub s i -> 0 <= i /\ i + len sub <= len s.
Proof.
  intros (pre & post & -> & <-). rewrite !len_app.
  pose proof (len_nonneg pre). pose proof (len_nonneg post). lia.
Qed.

Lemma scan_spec (sub s : str) (pos : Z) :
  (scan sub s pos = -1 /\
   forall k, (k <= length s)%nat -> starts_with sub (skipn k s) = false) \/
  (exists k, (k <= length s)%nat /\ scan sub s pos = pos + Z.of_nat k /\
             starts_with sub (skipn k s) = true /\
             forall k', (k' < k)%nat -> starts_with sub (skipn k' s) = false).
Proof.
  revert pos. induction s as [|c s IH]; intros pos; simpl.
  - destruct (starts_with sub []) eqn:E.
    + right. exists 0%nat. simpl. repeat split; [lia | lia | exact E | lia].
    + left. split; [reflexivity|]. intros k Hk.
      replace k with 0%nat by lia. exact E.
  - destruct (starts_with sub (c :: s)) eqn:E.
    + right. exists 0%nat. simpl. repeat split; [lia | lia | exact E | lia].
    + destruct (IH (pos + 1)) as [[H1 H2] | (k & Hk & H1 & H2 & H3)].
      * left. split; [exact H1|]. intros [|k] Hk; [exact E|].
        simpl. apply H2. simpl in Hk. lia.
      * right. exists (S k). simpl. repeat split; [lia | lia | exact H2 |].
        intros [|k'] Hk'; [exact E|]. simpl. apply H3. lia.
Qed.

(** What [find] returns, for a start index within the string. *)
Lemma find_spec (s sub : str) (start : Z) :
  0 <= start <= len s ->
  (find s sub start = -1 /\ forall j, start <= j -> ~ occurs_at sub s j) \/
  (exists i, find s sub start = i /\ first_occ sub s start i).
Proof.
  intros Hs. unfold find.
  destruct (Z.ltb_spec start 0) as [?|_]; [lia|].
  destruct (Z.ltb_spec (len s - start) (len sub)) as [Hlt|Hge].
  - left. split; [reflexivity|]. intros j Hj Hocc.
    apply occurs_at_bounds in Hocc. lia.
  - assert (Hskip : forall k, skipn k (skipn (Z.to_nat start) s)
                              = skipn (Z.to_nat (start + Z.of_nat k)) s).
    { intros k. rewrite skipn_skipn. f_equal. lia. }
    assert (Hlen : length (skipn (Z.to_nat start) s)
                   = (length s - Z.to_nat start)%nat) by apply length_skipn.
    destruct (scan_spec sub (skipn (Z.to_nat start) s) start)
      as [[H1 H2] | (k & Hk & H1 & H2 & H3)].
    + left. split; [exact H1|]. intros j Hj Hocc.
      pose proof (occurs_at_bounds _ _ _ Hocc) as Hb.
      apply occurs_at_iff in Hocc. unfold occurs_atb in Hocc.
      rewrite !andb_true_iff in Hocc. destruct Hocc as [_ Hocc].
      specialize (H2 (Z.to_nat (j - start))).
      rewrite Hskip in H2. replace (start + Z.of_nat (Z.to_nat (j - start))) with j in H2 by lia.
      rewrite H2 in Hocc; [discriminate|].
      unfold len in *. pose proof (len_nonneg sub). unfold len in *. lia.
    + right. exists (start + Z.of_nat k). split; [exact H1|].
      unfold len in *. repeat split.
      * lia.
      * apply occurs_at_iff. unfold occurs_atb. rewrite <- Hskip, H2.
        rewrite !andb_true_iff, !Z.leb_le. unfold len. repeat split; lia.
      * intros j Hj Hocc. apply occurs_at_iff in Hocc. unfold occurs_atb in Hocc.
        rewrite !andb_true_iff in Hocc. destruct Hocc as [_ Hocc].
        specialize (H3 (Z.to_nat (j - start))).
        rewrite Hskip in H3. replace (start + Z.of_nat (Z.to_nat (j - start))) with j in H3 by lia.
        rewrite H3 in Hocc; [discriminate | lia].
Qed.

Lemma first_occ_unique (sub s : str) (start i j : Z) :
  first_occ sub s start i -> first_occ sub s start j -> i = j.
Proof.
  intros (Hi & Oi & Mi) (Hj & Oj & Mj).
  destruct (Z.lt_trichotomy i j) as [H | [H | H]]; [|exact H|].
  - exfalso. apply (Mj i); [lia | exact Oi].
  - exfalso. apply (Mi j); [lia | exact Oj].
Qed.

Lemma find_first_occ (s sub : str) (start i : Z) :
  0 <= start <= len s -> first_occ sub s start i -> find s sub start = i.
Proof.
  intros Hs Hi. destruct (find_spec s sub start Hs) as [[_ Hno] | (i' & Hf & Hi')].
  - destruct Hi as (Hle & Ho & _). exfalso. exact (Hno i Hle Ho).
  - rewrite Hf. exact (first_occ_unique _ _ _ _ _ Hi' Hi).
Qed.

Lemma find_absent (s sub : str) (start : Z) :
  0 <= start <= len s ->
  (forall j, start <= j -> ~ occurs_at sub s j) -> find s sub start = -1.
Proof.
  intros Hs Hno. destruct (find_spec s sub start Hs) as [[Hf _] | (i & _ & Hi)].
  - exact Hf.
  - destruct Hi as (Hle & Ho & _). exfalso. exact (Hno i Hle Ho).
Qed.

Lemma first_occ_nonneg (sub s : str) (start i : Z) :
  first_occ sub s start i -> 0 <= i /\ i + len sub <= len s.
Proof. intros (_ & Ho & _). exact (occurs_at_bounds _ _ _ Ho). Qed.

(** An occurrence at or after [start] gives a first one. *)
Lemma occurs_first_occ (sub s : str) (start k : Z) :
  0 <= start <= len s -> start <= k -> occurs_at sub s k ->
  exists i, first_occ sub s start i.
Proof.
  intros Hs Hk Ho. destruct (find_spec s sub start Hs) as [[_ Hno] | (i & _ & Hi)].
  - exfalso. exact (Hno k Hk Ho).
  - exists i. exact Hi.
Qed.

Lemma clamp_index_inside (n i : Z) : 0 <= i <= n -> clamp_index n i = i.
Proof.
  intros H. unfold clamp_index.
  destruct (Z.ltb_spec i 0); lia.
Qed.

(** The slice that covers an occurrence is the occurring string. *)
Lemma slice_occurs_at (r s : str) (i : Z) :
  occurs_at r s i -> slice s i (i + len r) = r.
Proof.
  intros Ho. pose proof (occurs_at_bounds _ _ _ Ho) as Hb.
  pose proof (len_nonneg r) as Hr.
  destruct Ho as (pre & post & -> & <-).
  unfold slice. rewrite !clamp_index_inside by lia.
  replace (len pre + len r - len pre) with (len r) by lia.
  unfold len. rewrite !Nat2Z.id.
  rewrite skipn_app, skipn_all, Nat.sub_diag. simpl.
  rewrite firstn_app, firstn_all, Nat.sub_diag. simpl.
  apply app_nil_r.
Qed.

Lemma slice_inside (s : str) (lo hi : Z) :
  0 <= lo <= hi -> hi <= len s ->
  occurs_at (slice s lo hi) s lo /\ len (slice s lo hi) = hi - lo.
Proof.
  intros H1 H2. unfold slice. rewrite !clamp_index_inside by lia.
  split.
  - exists (firstn (Z.to_nat lo) s),
           (skipn (Z.to_nat (hi - lo)) (skipn (Z.to_nat lo) s)).
    split.
    + rewrite (firstn_skipn (Z.to_nat (hi - lo))). symmetry. apply firstn_skipn.
    + unfold len in *. rewrite length_firstn. lia.
  - unfold len in *. rewrite length_firstn, length_skipn. lia.
Qed.

Lemma slice_from_inside (s : str) (lo : Z) :
  0 <= lo <= len s ->
  s = firstn (Z.to_nat lo) s ++ slice_from s lo /\
  len (slice_from s lo) = len s - lo.
Proof.
  intros H. unfold slice_from. rewrite clamp_index_inside by lia. split.
  - symmetry. apply firstn_skipn.
  - unfold len in *. rewrite length_skipn. lia.
Qed.

Lemma slice_from_occurs_at (b s : str) (i : Z) :
  occurs_at b s i -> is_prefix b (slice_from s i).
Proof.
  intros Ho. pose proof (occurs_at_bounds _ _ _ Ho) as Hb.
  pose proof (len_nonneg b) as Hr.
  destruct Ho as (pre & post & -> & <-).
  unfold slice_from. rewrite clamp_index_inside by lia.
  unfold len. rewrite Nat2Z.id, skipn_app, skipn_all, Nat.sub_diag. simpl.
  exists post. reflexivity.
Qed.

(** Two occurrences, the second starting no earlier than the first ends,
    span one occurrence that begins with the first and ends with the
    second. *)
Lemma occurs_at_span (b e s : str) (i j : Z) :
  occurs_at b s i -> occurs_at e s j -> i + len b <= j ->
  exists m, occurs_at (b ++ m ++ e) s i /\ len (b ++ m ++ e) = j + len e - i.
Proof.
  intros (pre & post & Hs & Hi) (pre' & post' & Hs' & Hj) Hle.
  set (m := firstn (length pre' - length pre - length b) post).
  assert (Hpre' : pre' = pre ++ b ++ m).
  { assert (H : firstn (length pre') s = pre').
    { rewrite Hs'. rewrite firstn_app, firstn_all, Nat.sub_diag. simpl.
      apply app_nil_r. }
    rewrite <- H, Hs. unfold len in *.
    rewrite firstn_app, firstn_all2 by lia. f_equal.
    rewrite firstn_app, firstn_all2 by lia. f_equal. }
  exists m. split.
  - exists pre, post'. split; [|exact Hi].
    rewrite Hs', Hpre'. rewrite <- !app_assoc. reflexivity.
  - subst i j. rewrite Hpre'. rewrite !len_app. lia.
Qed.

(** ** The three exits of the extractor *)

Lemma extract_content_case (text begin end_ : str) :
  extract_case text begin end_ (extract_content text begin end_).
Proof.
  unfold extract_content.
  assert (H0 : 0 <= 0 <= len text) by (pose proof (len_nonneg text); lia).
  destruct (find_spec text begin 0 H0) as [[Hf Hno] | (i & Hf & Hi)].
  - rewrite Hf. simpl. apply ExNoBegin. intros [k Hk].
    apply (Hno k); [|exact Hk]. apply occurs_at_bounds in Hk. lia.
  - rewrite Hf. pose proof (first_occ_nonneg _ _ _ _ Hi) as Hb.
    pose proof (len_nonneg begin) as Hlb.
    destruct (Z.eqb_spec i (-1)) as [?|_]; [lia|].
    replace (i + len begin - len begin) with i by lia.
    assert (H1 : 0 <= i + len begin <= len text) by lia.
    destruct (find_spec text end_ (i + len begin) H1) as [[Hg Hno] | (j & Hg & Hj)].
    + rewrite Hg. simpl. apply ExNoEnd; assumption.
    + rewrite Hg. pose proof (first_occ_nonneg _ _ _ _ Hj) as Hc.
      destruct (Z.eqb_spec j (-1)) as [?|_]; [lia|].
      apply ExBoth; assumption.
Qed.

Lemma occurs_first_occ_0 (sub s : str) :
  occurs sub s -> exists i, first_occ sub s 0 i.
Proof.
  intros [k Hk]. pose proof (occurs_at_bounds _ _ _ Hk).
  apply (occurs_first_occ sub s 0 k); [pose proof (len_nonneg s); lia | lia | exact Hk].
Qed.

(** C1: when [begin] occurs in the text and [end] occurs at or after the
    index that follows the first [begin] match, [extract_content] returns
    the part of the text from the start of the first [begin] match
    through the end of the first such [end] match: it lies in the text at
    the index of the [begin] match, starts with [begin], ends with [end],
    and its length is the end of the [end] match minus the start of the
    [begin] match.  Scenario 1 of the specification is an instance. *)
Theorem extract_content_both_anchors :
  (forall (t b e : str) (i k : Z),
      first_occ b t 0 i -> i + len b <= k -> occurs_at e t k ->
      exists j r,
        first_occ e t (i + len b) j /\
        extract_content t b e = Some r /\
        r = slice t i (j + len e) /\
        occurs_at r t i /\
        is_prefix b r /\ is_suffix e r /\
        len r = j + len e - i) /\
  extract_content page (lit "START Hello") (lit "world END")
  = Some (lit "START Hello world END").
Proof.
  split; [|reflexivity].
  intros t b e i k Hi Hk Hok.
  pose proof (first_occ_nonneg _ _ _ _ Hi) as Hb.
  pose proof (len_nonneg b) as Hlb.
  destruct (occurs_first_occ e t (i + len b) k) as [j Hj]; [lia | exact Hk | exact Hok |].
  exists j, (slice t i (j + len e)).
  assert (Hex : extract_content t b e = Some (slice t i (j + len e))).
  { destruct (extract_content_case t b e) as [Hno | i' Hi' Hno | i' j' Hi' Hj'].
    - exfalso. apply Hno. exists i. apply Hi.
    - rewrite (first_occ_unique _ _ _ _ _ Hi' Hi) in Hno.
      exfalso. exact (Hno k Hk Hok).
    - rewrite (first_occ_unique _ _ _ _ _ Hi' Hi) in *.
      rewrite (first_occ_unique _ _ _ _ _ Hj' Hj). reflexivity. }
  destruct Hi as (_ & Hbi & _). pose proof Hj as (Hle & Hej & _).
  destruct (occurs_at_span b e t i j Hbi Hej Hle) as (m & Hspan & Hlen).
  assert (Hr : slice t i (j + len e) = b ++ m ++ e).
  { rewrite <- (slice_occurs_at _ _ _ Hspan). f_equal. lia. }
  split; [exact Hj|]. split; [exact Hex|]. split; [reflexivity|].
  rewrite Hr. split; [exact Hspan|]. split; [|split].
  - exists (m ++ e). reflexivity.
  - exists (b ++ m). rewrite <- app_assoc. reflexivity.
  - exact Hlen.
Qed.

Lemma extract_content_both_anchors_witness :
  exists j r,
    first_occ (lit "C") (lit "A B C D E") (2 + len (lit "B")) j /\
    extract_content (lit "A B C D E") (lit "B") (lit "C") = Some r /\
    r = slice (lit "A B C D E") 2 (j + len (lit "C")) /\
    occurs_at r (lit "A B C D E") 2 /\
    is_prefix (lit "B") r /\ is_suffix (lit "C") r /\
    len r = j + len (lit "C") - 2.
Proof.
  apply (proj1 extract_content_both_anchors (lit "A B C D E") (lit "B") (lit "C") 2 4).
  - repeat split.
    + lia.
    + apply occurs_at_iff. reflexivity.
    + intros j Hj Ho. apply occurs_at_iff in Ho.
      assert (j = 0 \/ j = 1) as [-> | ->] by lia; discriminate Ho.
  - vm_compute. discriminate.
  - apply occurs_at_iff. reflexivity.
Defined.

Lemma first_occ_find (s sub : str) (start i : Z) :
  0 <= start <= len s -> find s sub start = i -> i <> -1 ->
  first_occ sub s start i.
Proof.
  intros Hs Hf Hi. destruct (find_spec s sub start Hs) as [[Hg _] | (i' & Hg & Hi')].
  - congruence.
  - rewrite <- Hf, Hg. exact Hi'.
Qed.

Lemma occurs_iff_find (sub s : str) : occurs sub s <-> find s sub 0 <> -1.
Proof.
  assert (H0 : 0 <= 0 <= len s) by (pose proof (len_nonneg s); lia).
  split.
  - intros Ho. destruct (occurs_first_occ_0 _ _ Ho) as [i Hi].
    rewrite (find_first_occ _ _ _ _ H0 Hi).
    apply first_occ_nonneg in Hi. lia.
  - intros Hf. exists (find s sub 0).
    apply (first_occ_find s sub 0 _ H0 eq_refl Hf).
Qed.

Lemma extract_content_begin_absent (t b e : str) :
  ~ occurs b t -> extract_content t b e = None.
Proof.
  intros Hno.
  destruct (extract_content_case t b e) as [_ | i Hi _ | i j Hi _];
    [reflexivity | |]; exfalso; apply Hno; exists i; apply Hi.
Qed.

Lemma extract_content_begin_present (t b e : str) :
  occurs b t -> exists r, extract_content t b e = Some r.
Proof.
  intros Ho.
  destruct (extract_content_case t b e) as [Hno | i _ _ | i j _ _];
    [contradiction | eexists; reflexivity | eexists; reflexivity].
Qed.

(** C2: when [begin] does not occur in the text (as an exact sequence of
    characters), [extract_content] returns [None], whatever [end] is; and
    whenever [begin] does occur, it returns a string.  Scenario 3 of the
    specification: with text "A B C" and begin "Z" the result is [None]
    for every [end]. *)
Theorem extract_content_none_iff_begin_absent :
  (forall t b e : str, ~ occurs b t -> extract_content t b e = None) /\
  (forall t b e : str, occurs b t -> exists r, extract_content t b e = Some r) /\
  (forall e : str, extract_content (lit "A B C") (lit "Z") e = None).
Proof.
  split; [|split].
  - exact extract_content_begin_absent.
  - exact extract_content_begin_present.
  - intros e. reflexivity.
Qed.

Lemma extract_content_none_iff_begin_absent_witness :
  extract_content (lit "A B C") (lit "b") (lit "C") = None /\
  exists r, extract_content (lit "A B C") (lit "B") (lit "Z") = Some r.
Proof.
  destruct extract_content_none_iff_begin_absent as (Habs & Hpres & _).
  split.
  - apply Habs. rewrite occurs_iff_find. vm_compute. intros H. apply H. reflexivity.
  - apply Hpres. rewrite occurs_iff_find. vm_compute. discriminate.
Defined.

(** C3, as stated, fails for an empty [end]: the empty string is found
    right after the [begin] match, so the result stops there. *)
Lemma extract_content_empty_end_counterexample :
  ~ (forall (t b e : str) (i : Z),
        first_occ b t 0 i ->
        (e = [] \/ forall k, i + len b <= k -> ~ occurs_at e t k) ->
        extract_content t b e = Some (slice_from t i)).
Proof.
  intros H.
  specialize (H (lit "A B C D E") (lit "C") [] 4).
  assert (Hi : first_occ (lit "C") (lit "A B C D E") 0 4).
  { apply first_occ_find; [vm_compute; split; discriminate | reflexivity | discriminate]. }
  specialize (H Hi (or_introl eq_refl)). discriminate H.
Qed.

(** C3 (amended): when [end] does not occur in the text at or after the
    index that follows the first [begin] match, [extract_content] returns
    the suffix of the text that starts at that match; an empty [end] is
    always found right after the match, and the result is then [begin]
    itself.  Scenario 2 of the specification is an instance. *)
Theorem extract_content_end_absent :
  (forall (t b e : str) (i : Z),
      first_occ b t 0 i ->
      (forall k, i + len b <= k -> ~ occurs_at e t k) ->
      extract_content t b e = Some (slice_from t i) /\
      (exists pre, t = pre ++ slice_from t i /\ len pre = i) /\
      is_prefix b (slice_from t i)) /\
  (forall t b : str, occurs b t -> extract_content t b [] = Some b) /\
  extract_content (lit "A B C D E") (lit "C") (lit "Z") = Some (lit "C D E").
Proof.
  split; [|split; [|reflexivity]].
  - intros t b e i Hi Hno.
    pose proof (first_occ_nonneg _ _ _ _ Hi) as Hb.
    pose proof (len_nonneg b) as Hlb.
    split; [|split].
    + destruct (extract_content_case t b e) as [Hn | i' Hi' _ | i' j' Hi' Hj'].
      * exfalso. apply Hn. exists i. apply Hi.
      * rewrite (first_occ_unique _ _ _ _ _ Hi' Hi). reflexivity.
      * rewrite (first_occ_unique _ _ _ _ _ Hi' Hi) in Hj'.
        destruct Hj' as (Hle & Ho & _). exfalso. exact (Hno j' Hle Ho).
    + exists (firstn (Z.to_nat i) t).
      destruct (slice_from_inside t i) as [Ht _]; [lia|].
      split; [exact Ht|]. unfold len in *. rewrite length_firstn. lia.
    + apply slice_from_occurs_at. apply Hi.
  - intros t b Ho. destruct (occurs_first_occ_0 _ _ Ho) as [i Hi].
    pose proof (first_occ_nonneg _ _ _ _ Hi) as Hb.
    pose proof (len_nonneg b) as Hlb.
    assert (He : first_occ [] t (i + len b) (i + len b)).
    { split; [lia|]. split; [|intros j Hj; lia].
      apply occurs_at_iff. unfold occurs_atb. simpl.
      rewrite !andb_true_iff, !Z.leb_le. repeat split; lia. }
    destruct (extract_content_case t b []) as [Hn | i' Hi' Hno | i' j' Hi' Hj'].
    + contradiction.
    + rewrite (first_occ_unique _ _ _ _ _ Hi' Hi) in Hno.
      destruct He as (_ & He & _). exfalso. apply (Hno (i + len b)); [lia | exact He].
    + rewrite (first_occ_unique _ _ _ _ _ Hi' Hi) in *.
      rewrite (first_occ_unique _ _ _ _ _ Hj' He).
      f_equal. change (len []) with 0. rewrite Z.add_0_r.
      apply slice_occurs_at. apply Hi.
Qed.

Lemma extract_content_end_absent_witness :
  (extract_content (lit "A B C D E") (lit "C") (lit "A")
   = Some (slice_from (lit "A B C D E") 4) /\
   (exists pre, lit "A B C D E" = pre ++ slice_from (lit "A B C D E") 4 /\ len pre = 4) /\
   is_prefix (lit "C") (slice_from (lit "A B C D E") 4)) /\
  extract_content (lit "A B C D E") (lit "C") [] = Some (lit "C").
Proof.
  destruct extract_content_end_absent as (Hsuf & Hemp & _).
  split.
  - apply Hsuf.
    + apply first_occ_find; [vm_compute; split; discriminate | reflexivity | discriminate].
    + intros k Hk Ho. apply occurs_at_iff in Ho.
      pose proof (occurs_at_bounds (lit "A") (lit "A B C D E") k) as Hb.
      rewrite occurs_at_iff in Hb. specialize (Hb Ho).
      change (len (lit "C")) with 1 in Hk. change (len (lit "A")) with 1 in Hb.
      change (len (lit "A B C D E")) with 9 in Hb.
      assert (k = 5 \/ k = 6 \/ k = 7 \/ k = 8) as [-> | [-> | [-> | ->]]] by lia;
        discriminate Ho.
  - apply Hemp. rewrite occurs_iff_find. vm_compute. discriminate.
Defined.

(** C5, as stated, fails: with both anchors empty the result is present
    and empty. *)
Lemma extract_content_empty_result_counterexample :
  ~ (forall t b e r : str,
        extract_content t b e = Some r -> r <> [] /\ occurs r t).
Proof.
  intros H. destruct (H (lit "abc") [] [] [] eq_refl) as [Hne _].
  apply Hne. reflexivity.
Qed.

(** C5 (amended): a present result of [extract_content] occurs in the
    text as one unbroken span, and it is non-empty whenever [begin] is
    non-empty. *)
Theorem extract_content_substring (t b e r : str) :
  extract_content t b e = Some r ->
  occurs r t /\ (b <> [] -> r <> []).
Proof.
  intros Hr.
  assert (Hpre : forall x y : str, is_prefix x y -> x <> [] -> y <> []).
  { intros x y [z ->] Hx Hy. apply app_eq_nil in Hy. apply Hx, Hy. }
  destruct (extract_content_case t b e) as [_ | i Hi _ | i j Hi Hj];
    [discriminate | |]; injection Hr as <-;
    pose proof (first_occ_nonneg _ _ _ _ Hi) as Hb;
    pose proof (len_nonneg b) as Hlb.
  - split.
    + exists i, (firstn (Z.to_nat i) t), []. rewrite app_nil_r.
      destruct (slice_from_inside t i) as [Ht _]; [lia|].
      split; [exact Ht|]. unfold len in *. rewrite length_firstn. lia.
    + apply Hpre, slice_from_occurs_at, Hi.
  - destruct Hi as (_ & Hbi & _). destruct Hj as (Hle & Hej & _).
    destruct (occurs_at_span b e t i j Hbi Hej Hle) as (m & Hspan & Hlen).
    assert (Hs : slice t i (j + len e) = b ++ m ++ e).
    { rewrite <- (slice_occurs_at _ _ _ Hspan). f_equal. lia. }
    rewrite Hs. split.
    + exists i. exact Hspan.
    + apply Hpre. exists (m ++ e). reflexivity.
Qed.

Lemma extract_content_substring_witness :
  occurs (lit "C D E") (lit "A B C D E") /\
  (lit "C" <> [] -> lit "C D E" <> []).
Proof.
  apply (extract_content_substring (lit "A B C D E") (lit "C") (lit "Z")).
  reflexivity.
Defined.

(** ** The retry loop *)

Lemma scrape_loop_present (text b e c : str) (r : Z) :
  scrape_loop text b e (Some c) r = ret (Some c).
Proof. simp scrape_loop. reflexivity. Qed.

Lemma scrape_loop_exhausted (text b e : str) (r : Z) :
  r < 0 -> scrape_loop text b e None r = ret None.
Proof.
  intros Hr. simp scrape_loop.
  destruct (Z_le_gt_dec 0 r) as [?|?]; [lia|]. simp scrape_loop. reflexivity.
Qed.

Lemma scrape_loop_attempt (text b e : str) (r : Z) :
  0 <= r ->
  scrape_loop text b e None r
  = (emit (EvExtract text b e) ;;
     scrape_loop text b e (extract_content text b e) (r - 1)).
Proof.
  intros Hr. simp scrape_loop.
  destruct (Z_le_gt_dec 0 r) as [?|?]; [|lia]. simp scrape_loop. reflexivity.
Qed.

(** The number of passes through the loop body started with no content
    and budget [r]: one when the extraction gives a result, [r + 1] when
    it does not. *)
Lemma scrape_loop_run (text b e : str) (r : Z) :
  0 <= r ->
  scrape_loop text b e None r
  = (repeat (EvExtract text b e)
       (match extract_content text b e with
        | Some _ => 1%nat
        | None => Z.to_nat (r + 1)
        end),
     inr (extract_content text b e)).
Proof.
  intros Hr. pattern r. apply natlike_ind; [| |exact Hr]; clear r Hr.
  - rewrite scrape_loop_attempt by lia.
    destruct (extract_content text b e) as [c|] eqn:E.
    + rewrite scrape_loop_present. reflexivity.
    + rewrite scrape_loop_exhausted by lia. reflexivity.
  - intros r Hr IH. rewrite scrape_loop_attempt by lia.
    replace (Z.succ r - 1) with r by lia.
    destruct (extract_content text b e) as [c|] eqn:E.
    + rewrite scrape_loop_present. reflexivity.
    + rewrite IH. unfold bind, emit. simpl app.
      replace (Z.to_nat (Z.succ r + 1)) with (S (Z.to_nat (r + 1))) by lia.
      reflexivity.
Qed.

(** ** The orchestrator *)

Lemma get_url_text_events (w : env) (url : str) :
  events (get_url_text w url) = [EvGet url].
Proof.
  unfold get_url_text, events, bind, emit, lift, check, ret, raise.
  destruct (requests_get w url) as [e|resp]; [reflexivity|].
  destruct (raise_for_status w resp); reflexivity.
Qed.

Lemma _begin_end_events (w : env) (self : AIScrape) (text : str) :
  events (_begin_end w self text) = [EvOracle (model self) text].
Proof.
  unfold _begin_end, events, bind, emit, lift.
  destruct (chat_completion w (model self) text) as [e|c]; [reflexivity|].
  destruct (json_begin_end w c); reflexivity.
Qed.

Lemma get_url_text_outcome (w : env) (url : str) :
  outcome (get_url_text w url)
  = match requests_get w url with
    | inl e => inl e
    | inr resp =>
        match raise_for_status w resp with
        | Some e => inl e
        | None => inr (get_text w (resp_text resp))
        end
    end.
Proof.
  unfold get_url_text, outcome, bind, emit, lift, check, ret, raise.
  destruct (requests_get w url) as [e|resp]; [reflexivity|].
  destruct (raise_for_status w resp); reflexivity.
Qed.

(** One run of [scrape], unfolded along the results of its two calls. *)
Lemma scrape_run (w : env) (self : AIScrape) (url : str) (r : Z) :
  scrape w self url r
  = match outcome (get_url_text w url) with
    | inl x => ([EvGet url], inl x)
    | inr text =>
        match outcome (_begin_end w self text) with
        | inl x => ([EvGet url; EvOracle (model self) text], inl x)
        | inr (b, e) =>
            if 0 <=? r
            then ([EvGet url; EvOracle (model self) text; EvExtract text b e],
                  inr (extract_content text b e))
            else ([EvGet url; EvOracle (model self) text], inr None)
        end
    end.
Proof.
  unfold scrape.
  pose proof (get_url_text_events w url) as Hg.
  destruct (get_url_text w url) as [tg [x|text]];
    unfold events, outcome in *; simpl in Hg |- *; subst tg; [reflexivity|].
  pose proof (_begin_end_events w self text) as Ho.
  destruct (_begin_end w self text) as [to [x|[b e]]];
    unfold events in Ho; simpl in Ho |- *; subst to; [reflexivity|].
  destruct (Z.leb_spec 0 r) as [Hr|Hr].
  - rewrite Z.min_l by lia. rewrite scrape_loop_run by lia.
    destruct (extract_content text b e); reflexivity.
  - rewrite Z.min_r by lia. rewrite scrape_loop_exhausted by lia. reflexivity.
Qed.

(** C4, as stated, fails: asked for zero retries, [scrape] still makes
    its first extraction attempt. *)
Lemma scrape_attempts_counterexample :
  ~ (forall (w : env) (self : AIScrape) (url : str) (r : Z),
        0 <= attempts (events (scrape w self url r)) <= r).
Proof.
  intros H.
  specialize (H (demo_env (lit "START", lit "END")) gpt (lit "http://example.org") 0).
  vm_compute in H. destruct H as [_ H]. apply H. reflexivity.
Qed.

(** C4 (amended): one call of [scrape] makes at least zero and at most
    [max retries 0 + 1] extraction attempts (a first attempt and the
    requested retries); when no attempt gives a result, [scrape] returns
    [None]; so it does when the [begin] anchor of the oracle does not
    occur in the fetched text. *)
Theorem scrape_attempts_bounded (w : env) (self : AIScrape) (url : str) (r : Z) :
  0 <= attempts (events (scrape w self url r)) <= Z.max 0 r + 1 /\
  (forall res,
      outcome (scrape w self url r) = inr res ->
      (forall text b e,
          In (EvExtract text b e) (events (scrape w self url r)) ->
          extract_content text b e = None) ->
      res = None) /\
  (forall text b e,
      outcome (get_url_text w url) = inr text ->
      outcome (_begin_end w self text) = inr (b, e) ->
      ~ occurs b text ->
      outcome (scrape w self url r) = inr None).
Proof.
  rewrite scrape_run.
  destruct (outcome (get_url_text w url)) as [x|text].
  { unfold attempts, count, events, outcome; simpl.
    split; [lia|]. split; [discriminate|discriminate]. }
  destruct (outcome (_begin_end w self text)) as [x|[b e]] eqn:Eo.
  { unfold attempts, count, events, outcome in *; simpl.
    split; [lia|]. split; [discriminate|].
    intros ? ? ? [= <-] Ha. congruence. }
  destruct (Z.leb_spec 0 r) as [Hr|Hr]; unfold attempts, count, events, outcome in *; simpl.
  - split; [lia|]. split.
    + intros res Hres Hall. injection Hres as <-.
      apply Hall. right. right. left. reflexivity.
    + intros text' b' e' Ht Ha Hno. injection Ht as <-.
      rewrite Eo in Ha. injection Ha as <- <-.
      f_equal. apply extract_content_begin_absent. exact Hno.
  - split; [lia|]. split.
    + intros res Hres _. injection Hres as <-. reflexivity.
    + reflexivity.
Qed.

Lemma scrape_attempts_bounded_witness :
  outcome (scrape (demo_env (lit "Z", lit "END")) gpt (lit "http://example.org") 3)
  = inr None.
Proof.
  apply (proj2 (proj2 (scrape_attempts_bounded
                         (demo_env (lit "Z", lit "END")) gpt
                         (lit "http://example.org") 3))
           page (lit "Z") (lit "END")).
  - reflexivity.
  - reflexivity.
  - rewrite occurs_iff_find. vm_compute. intros H. apply H. reflexivity.
Defined.

(** C6: [scrape] clamps the budget with [min 0 retries].  For every
    [retries >= 0] the run is the run with [retries = 0], trace and
    result alike, and once the text and the anchors are obtained it makes
    exactly one extraction attempt, whose result it returns.  For every
    [retries < 0] it makes no extraction attempt, and once the text and
    the anchors are obtained it returns [None], whatever they are. *)
Theorem scrape_retries_clamped (w : env) (self : AIScrape) (url : str) (r : Z) :
  (0 <= r ->
   scrape w self url r = scrape w self url 0 /\
   forall text b e,
     outcome (get_url_text w url) = inr text ->
     outcome (_begin_end w self text) = inr (b, e) ->
     attempts (events (scrape w self url r)) = 1 /\
     outcome (scrape w self url r) = inr (extract_content text b e)) /\
  (r < 0 ->
   attempts (events (scrape w self url r)) = 0 /\
   forall text b e,
     outcome (get_url_text w url) = inr text ->
     outcome (_begin_end w self text) = inr (b, e) ->
     outcome (scrape w self url r) = inr None).
Proof.
  split; intros Hr.
  - split.
    + rewrite !scrape_run.
      destruct (Z.leb_spec 0 r) as [_|?]; [reflexivity | lia].
    + intros text b e Ht Ha. rewrite scrape_run, Ht, Ha.
      destruct (Z.leb_spec 0 r) as [_|?]; [|lia].
      split; reflexivity.
  - rewrite scrape_run. split.
    + destruct (outcome (get_url_text w url)) as [x|text]; [reflexivity|].
      destruct (outcome (_begin_end w self text)) as [x|[b e]]; [reflexivity|].
      destruct (Z.leb_spec 0 r) as [?|_]; [lia | reflexivity].
    + intros text b e Ht Ha. rewrite Ht, Ha.
      destruct (Z.leb_spec 0 r) as [?|_]; [lia | reflexivity].
Qed.

Lemma scrape_retries_clamped_witness :
  (scrape (demo_env (lit "START", lit "END")) gpt (lit "u") 3
   = scrape (demo_env (lit "START", lit "END")) gpt (lit "u") 0 /\
   attempts (events (scrape (demo_env (lit "START", lit "END")) gpt (lit "u") 3)) = 1 /\
   outcome (scrape (demo_env (lit "START", lit "END")) gpt (lit "u") 3)
   = inr (extract_content page (lit "START") (lit "END"))) /\
  (attempts (events (scrape (demo_env (lit "START", lit "END")) gpt (lit "u") (-2))) = 0 /\
   outcome (scrape (demo_env (lit "START", lit "END")) gpt (lit "u") (-2)) = inr None).
Proof.
  split.
  - destruct (proj1 (scrape_retries_clamped
                       (demo_env (lit "START", lit "END")) gpt (lit "u") 3))
      as [Heq Hone]; [lia|].
    split; [exact Heq|].
    apply (Hone page (lit "START") (lit "END")); reflexivity.
  - destruct (proj2 (scrape_retries_clamped
                       (demo_env (lit "START", lit "END")) gpt (lit "u") (-2)))
      as [Hzero Hnone]; [lia|].
    split; [exact Hzero|].
    apply (Hnone page (lit "START") (lit "END")); reflexivity.
Defined.

(** C7: in one call of [scrape] the fetcher is called exactly once, and
    the oracle at most once: exactly once as soon as the fetch returns.
    When both return, the trace is the fetch, then the oracle call on the
    fetched text, then the extraction attempts, each on that same text
    and on the anchors the oracle gave; no call to the fetcher or to the
    oracle follows an attempt. *)
Theorem scrape_calls_once (w : env) (self : AIScrape) (url : str) (r : Z) :
  fetches (events (scrape w self url r)) = 1 /\
  oracle_calls (events (scrape w self url r)) <= 1 /\
  (forall text,
      outcome (get_url_text w url) = inr text ->
      oracle_calls (events (scrape w self url r)) = 1) /\
  (forall text b e,
      outcome (get_url_text w url) = inr text ->
      outcome (_begin_end w self text) = inr (b, e) ->
      exists n,
        events (scrape w self url r)
        = EvGet url :: EvOracle (model self) text :: repeat (EvExtract text b e) n /\
        Z.of_nat n = attempts (events (scrape w self url r))) /\
  (forall text b e,
      In (EvExtract text b e) (events (scrape w self url r)) ->
      outcome (get_url_text w url) = inr text /\
      outcome (_begin_end w self text) = inr (b, e)).
Proof.
  rewrite scrape_run.
  destruct (outcome (get_url_text w url)) as [x|text] eqn:Et.
  { split; [reflexivity|]. split; [unfold oracle_calls, count, events; simpl; lia|].
    split; [discriminate|]. split; [discriminate|].
    intros ? ? ? [H|[]]. discriminate H. }
  destruct (outcome (_begin_end w self text)) as [x|[b e]] eqn:Ea.
  { split; [reflexivity|]. split; [unfold oracle_calls, count, events; simpl; lia|].
    split; [reflexivity|]. split.
    - intros ? ? ? [= <-] Ha. congruence.
    - intros ? ? ? [H|[H|[]]]; discriminate H. }
  assert (Hin : forall text' b' e' n,
             In (EvExtract text' b' e')
                (EvGet url :: EvOracle (model self) text :: repeat (EvExtract text b e) n) ->
             inr text = (inr text' : exn + str) /\
             outcome (_begin_end w self text') = inr (b', e')).
  { intros text' b' e' n [H|[H|H]]; try discriminate H.
    apply repeat_spec in H. injection H as -> -> ->. split; [reflexivity | exact Ea]. }
  destruct (Z.leb_spec 0 r) as [Hr|Hr].
  - split; [reflexivity|]. split; [unfold oracle_calls, count, events; simpl; lia|].
    split; [reflexivity|]. split.
    + intros text' b' e' [= <-] Ha. rewrite Ea in Ha. injection Ha as <- <-.
      exists 1%nat. split; reflexivity.
    + intros text' b' e' H. apply (Hin text' b' e' 1%nat). exact H.
  - split; [reflexivity|]. split; [unfold oracle_calls, count, events; simpl; lia|].
    split; [reflexivity|]. split.
    + intros text' b' e' [= <-] Ha. rewrite Ea in Ha. injection Ha as <- <-.
      exists 0%nat. split; reflexivity.
    + intros text' b' e' H. apply (Hin text' b' e' 0%nat). exact H.
Qed.

Lemma scrape_calls_once_witness :
  exists n,
    events (scrape (demo_env (lit "Z", lit "END")) gpt (lit "u") 3)
    = EvGet (lit "u") :: EvOracle (model gpt) page
        :: repeat (EvExtract page (lit "Z") (lit "END")) n /\
    Z.of_nat n
    = attempts (events (scrape (demo_env (lit "Z", lit "END")) gpt (lit "u") 3)).
Proof.
  destruct (scrape_calls_once (demo_env (lit "Z", lit "END")) gpt (lit "u") 3)
    as (_ & _ & _ & Hshape & _).
  apply Hshape; reflexivity.
Defined.

(** C8: when the fetch fails, either in [requests.get] or in
    [raise_for_status], [scrape] raises that same exception; its trace is
    the one call of the fetcher: no oracle call, no extraction attempt, no
    second fetch. *)
Theorem scrape_fetch_error (w : env) (self : AIScrape) (url : str) (r : Z) (x : exn) :
  requests_get w url = inl x \/
  (exists resp, requests_get w url = inr resp /\ raise_for_status w resp = Some x) ->
  outcome (get_url_text w url) = inl x /\
  scrape w self url r = ([EvGet url], inl x) /\
  attempts (events (scrape w self url r)) = 0 /\
  oracle_calls (events (scrape w self url r)) = 0 /\
  fetches (events (scrape w self url r)) = 1.
Proof.
  intros H.
  assert (Hf : outcome (get_url_text w url) = inl x).
  { rewrite get_url_text_outcome.
    destruct H as [-> | (resp & -> & ->)]; reflexivity. }
  split; [exact Hf|]. rewrite scrape_run, Hf.
  repeat split.
Qed.

Lemma scrape_fetch_error_witness :
  scrape offline_env gpt (lit "http://example.org") 3
  = ([EvGet (lit "http://example.org")], inl (ConnectionError (lit "unreachable"))).
Proof.
  apply (scrape_fetch_error offline_env gpt (lit "http://example.org") 3
           (ConnectionError (lit "unreachable"))).
  left. reflexivity.
Defined.

(** C9 (the code departs from it): run as a script, the value [main]
    returns is dropped, so the exit status is 0 where [main] returns 1
    (no URL argument) and where it returns 2 (no content extracted); the
    status is never 2. *)
Theorem script_exit_status :
  (script (demo_env (lit "Z", lit "END")) [lit "aiscrape.py"]
   = ([EvPrint (lit "Usage: aiscrape.py [url]")], 0) /\
   outcome (main (demo_env (lit "Z", lit "END")) [lit "aiscrape.py"])
   = inr (Some 1)) /\
  (snd (script (demo_env (lit "Z", lit "END")) [lit "aiscrape.py"; lit "http://x"]) = 0 /\
   printed (fst (script (demo_env (lit "Z", lit "END")) [lit "aiscrape.py"; lit "http://x"]))
   = [lit "Failed to extract content url: http://x"] /\
   outcome (main (demo_env (lit "Z", lit "END")) [lit "aiscrape.py"; lit "http://x"])
   = inr (Some 2)) /\
  (forall w argv, snd (script w argv) = 0 \/ snd (script w argv) = 1).
Proof.
  split; [|split].
  - split; reflexivity.
  - repeat split.
  - intros w argv. unfold script.
    destruct (main w argv) as [t [x|v]]; [right | left]; reflexivity.
Qed.

(** ** Determinism *)

Lemma extract_case_functional (t b e : str) (r1 r2 : option str) :
  extract_case t b e r1 -> extract_case t b e r2 -> r1 = r2.
Proof.
  intros H1 H2.
  destruct H1 as [Hn1 | i1 Hi1 Hn1 | i1 j1 Hi1 Hj1];
    destruct H2 as [Hn2 | i2 Hi2 Hn2 | i2 j2 Hi2 Hj2];
    try reflexivity;
    try (exfalso; apply Hn1; exists i2; apply Hi2);
    try (exfalso; apply Hn2; exists i1; apply Hi1);
    pose proof (first_occ_unique _ _ _ _ _ Hi1 Hi2) as <-.
  - reflexivity.
  - destruct Hj2 as (Hle & Ho & _). exfalso. exact (Hn1 j2 Hle Ho).
  - destruct Hj1 as (Hle & Ho & _). exfalso. exact (Hn2 j1 Hle Ho).
  - rewrite (first_occ_unique _ _ _ _ _ Hj1 Hj2). reflexivity.
Qed.

(** C10: [extract_content] is deterministic.  Two calls on the same
    [(t, begin, end)] give the same result; the result is the only one
    the three exits of the function allow for these arguments; and the
    retry loop, which calls it again on the same arguments, returns for
    every budget what one call returns. *)
Theorem extract_content_deterministic :
  (forall (t b e : str) (r1 r2 : option str),
      extract_content t b e = r1 -> extract_content t b e = r2 -> r1 = r2) /\
  (forall (t b e : str) (r : option str),
      extract_case t b e r -> r = extract_content t b e) /\
  (forall (t b e : str) (k : Z),
      0 <= k ->
      outcome (scrape_loop t b e None k) = inr (extract_content t b e)).
Proof.
  split; [|split].
  - intros t b e r1 r2 <- <-. reflexivity.
  - intros t b e r Hr.
    exact (extract_case_functional t b e _ _ Hr (extract_content_case t b e)).
  - intros t b e k Hk. rewrite scrape_loop_run by exact Hk. reflexivity.
Qed.

Lemma extract_content_deterministic_witness :
  Some (lit "C D E") = Some (lit "C D E") /\
  Some (slice_from (lit "A B C D E") 4)
  = extract_content (lit "A B C D E") (lit "C") (lit "Z") /\
  outcome (scrape_loop (lit "A B C") (lit "Z") (lit "C") None 3)
  = inr (extract_content (lit "A B C") (lit "Z") (lit "C")).
Proof.
  destruct extract_content_deterministic as (Hfun & Hrel & Hloop).
  split; [|split].
  - apply (Hfun (lit "A B C D E") (lit "C") (lit "Z")); reflexivity.
  - apply Hrel. apply ExNoEnd.
    + apply first_occ_find; [vm_compute; split; discriminate | reflexivity | discriminate].
    + intros k Hk Ho.
      pose proof (occurs_at_bounds _ _ _ Ho) as Hb. apply occurs_at_iff in Ho.
      change (len (lit "C")) with 1 in Hk. change (len (lit "Z")) with 1 in Hb.
      change (len (lit "A B C D E")) with 9 in Hb.
      assert (k = 5 \/ k = 6 \/ k = 7 \/ k = 8) as [-> | [-> | [-> | ->]]] by lia;
        discriminate Ho.
  - apply Hloop. lia.
Defined.

(** * Further properties of the code *)

(** ** Occurrences under extension and inside a span *)

Lemma occurs_at_app_l (sub t u : str) (k : Z) :
  occurs_at sub t k -> occurs_at sub (t ++ u) k.
Proof.
  intros (pre & post & -> & Hk). exists pre, (post ++ u). split; [|exact Hk].
  rewrite <- !app_assoc. reflexivity.
Qed.

Lemma occurs_at_app_inv (sub t u : str) (k : Z) :
  occurs_at sub (t ++ u) k -> k + len sub <= len t -> occurs_at sub t k.
Proof.
  intros (pre & post & Hs & Hk) Hle.
  exists pre, (firstn (length t - length pre - length sub) post).
  split; [|exact Hk].
  assert (H : firstn (length t) (t ++ u) = t).
  { rewrite firstn_app, firstn_all, Nat.sub_diag. simpl. apply app_nil_r. }
  rewrite <- H at 1. rewrite Hs. unfold len in *.
  rewrite firstn_app, firstn_all2 by lia. f_equal.
  rewrite firstn_app, firstn_all2 by lia. f_equal.
Qed.

Lemma first_occ_app (sub t u : str) (start i : Z) :
  first_occ sub t start i -> first_occ sub (t ++ u) start i.
Proof.
  intros (Hle & Ho & Hmin). pose proof (occurs_at_bounds _ _ _ Ho) as Hb.
  split; [exact Hle|]. split; [apply occurs_at_app_l, Ho|].
  intros j Hj Hoj. apply (Hmin j Hj).
  apply (occurs_at_app_inv sub t u j Hoj). lia.
Qed.

(** An occurrence inside a span of the text is an occurrence in the text. *)
Lemma occurs_at_inner (x r t : str) (i k : Z) :
  occurs_at r t i -> occurs_at x r k -> occurs_at x t (i + k).
Proof.
  intros (pre & post & -> & <-) (pre' & post' & -> & <-).
  exists (pre ++ pre'), (post' ++ post). split.
  - rewrite <- !app_assoc. reflexivity.
  - apply len_app.
Qed.

Lemma occurs_at_self (r : str) : occurs_at r r 0.
Proof. exists [], []. split; [rewrite app_nil_r; reflexivity | reflexivity]. Qed.

Lemma occurs_at_firstn (r t : str) (i : Z) :
  occurs_at r t i -> r = firstn (length r) (skipn (Z.to_nat i) t).
Proof.
  intros (pre & post & -> & <-). unfold len. rewrite Nat2Z.id.
  rewrite skipn_app, skipn_all, Nat.sub_diag. simpl.
  rewrite firstn_app, firstn_all, Nat.sub_diag. simpl.
  symmetry. apply app_nil_r.
Qed.

Lemma first_occ_head (b x : str) : first_occ b (b ++ x) 0 0.
Proof.
  split; [lia|]. split; [exists [], x; split; reflexivity | intros j Hj; lia].
Qed.

(** What a present result looks like: it lies at the first [begin] match
    and is either [begin ++ m ++ end_], closed by the first [end_] match
    after [begin], or the rest of the text, no [end_] being found. *)
Lemma extract_content_shape (t b e r : str) :
  extract_content t b e = Some r ->
  exists i,
    first_occ b t 0 i /\ occurs_at r t i /\
    ((exists m, r = b ++ m ++ e /\
                first_occ e t (i + len b) (i + len b + len m)) \/
     ((forall k, i + len b <= k -> ~ occurs_at e t k) /\
      (exists x, r = b ++ x) /\
      exists pre, t = pre ++ r /\ len pre = i)).
Proof.
  intros Hr.
  destruct (extract_content_case t b e) as [_ | i Hi Hno | i j Hi Hj];
    [discriminate | |]; injection Hr as <-; exists i;
    pose proof (first_occ_nonneg _ _ _ _ Hi) as Hb;
    pose proof (len_nonneg b) as Hlb.
  - destruct (slice_from_inside t i) as [Ht _]; [lia|].
    assert (Hpre : len (firstn (Z.to_nat i) t) = i).
    { unfold len in *. rewrite length_firstn. lia. }
    split; [exact Hi|]. split.
    + exists (firstn (Z.to_nat i) t), []. rewrite app_nil_r. split; assumption.
    + right. split; [exact Hno|]. split.
      * apply slice_from_occurs_at, Hi.
      * exists (firstn (Z.to_nat i) t). split; assumption.
  - pose proof Hi as (_ & Hbi & _). pose proof Hj as (Hle & Hej & _).
    destruct (occurs_at_span b e t i j Hbi Hej Hle) as (m & Hspan & Hlen).
    assert (Hs : slice t i (j + len e) = b ++ m ++ e).
    { rewrite <- (slice_occurs_at _ _ _ Hspan). f_equal. lia. }
    rewrite Hs. split; [exact Hi|]. split; [exact Hspan|].
    left. exists m. split; [reflexivity|].
    replace (i + len b + len m) with j; [exact Hj|].
    rewrite !len_app in Hlen. lia.
Qed.

(** ** The extractor: shape, idempotence, locality, minimality, bounds *)

(** X1: a present result of [extract_content] starts with [begin] and
    lies in the text at the first [begin] match; it either ends with
    [end], which then does not overlap [begin], or runs to the end of the
    text. *)
Theorem extract_content_result_shape (t b e r : str) :
  extract_content t b e = Some r ->
  is_prefix b r /\
  (exists i, first_occ b t 0 i /\ occurs_at r t i) /\
  ((is_suffix e r /\ len b + len e <= len r) \/ is_suffix r t).
Proof.
  intros Hr.
  destruct (extract_content_shape t b e r Hr) as (i & Hi & Ho & Hcase).
  split; [|split].
  - destruct Hcase as [(m & -> & _) | (_ & (x & ->) & _)].
    + exists (m ++ e). reflexivity.
    + exists x. reflexivity.
  - exists i. split; assumption.
  - destruct Hcase as [(m & -> & _) | (_ & _ & (pre & -> & _))].
    + left. split.
      * exists (b ++ m). rewrite <- app_assoc. reflexivity.
      * rewrite !len_app. pose proof (len_nonneg m). lia.
    + right. exists pre. reflexivity.
Qed.

Lemma extract_content_result_shape_witness :
  is_prefix (lit "START Hello") (lit "START Hello world END") /\
  (exists i, first_occ (lit "START Hello") page 0 i /\
             occurs_at (lit "START Hello world END") page i) /\
  ((is_suffix (lit "world END") (lit "START Hello world END") /\
    len (lit "START Hello") + len (lit "world END")
    <= len (lit "START Hello world END")) \/
   is_suffix (lit "START Hello world END") page).
Proof.
  apply (extract_content_result_shape page (lit "START Hello") (lit "world END")).
  reflexivity.
Defined.

(** X2: extraction is idempotent on its result: extracting again from a
    present result, with the same anchors, gives that result back. *)
Theorem extract_content_idempotent (t b e r : str) :
  extract_content t b e = Some r -> extract_content r b e = Some r.
Proof.
  intros Hr.
  destruct (extract_content_shape t b e r Hr) as (i & Hi & Ho & Hcase).
  apply (extract_case_functional r b e); [apply extract_content_case|].
  pose proof (len_nonneg b) as Hlb.
  destruct Hcase as [(m & Hm & Hj) | (Hno & (x & Hx) & _)].
  - assert (Hsl : slice r 0 (len b + len m + len e) = r).
    { replace (len b + len m + len e) with (0 + len r)
        by (rewrite Hm, !len_app; lia).
      apply slice_occurs_at, occurs_at_self. }
    rewrite <- Hsl at 2.
    apply (ExBoth r b e 0 (len b + len m)).
    + rewrite Hm. apply first_occ_head.
    + split; [pose proof (len_nonneg m); lia|]. split.
      * rewrite Hm. exists (b ++ m), []. split.
        -- rewrite app_nil_r, <- app_assoc. reflexivity.
        -- apply len_app.
      * intros k Hk Hok. destruct Hj as (_ & _ & Hmin).
        apply (Hmin (i + k)); [lia|].
        exact (occurs_at_inner e r t i k Ho Hok).
  - assert (Hsl : slice_from r 0 = r).
    { unfold slice_from. rewrite clamp_index_inside
        by (pose proof (len_nonneg r); lia). reflexivity. }
    rewrite <- Hsl at 2. apply (ExNoEnd r b e 0).
    + rewrite Hx. apply first_occ_head.
    + intros k Hk Hok. apply (Hno (i + k)); [lia|].
      exact (occurs_at_inner e r t i k Ho Hok).
Qed.

Lemma extract_content_idempotent_witness :
  extract_content (lit "START Hello world END") (lit "START Hello") (lit "world END")
  = Some (lit "START Hello world END").
Proof.
  apply (extract_content_idempotent page). reflexivity.
Defined.

(** X3: what follows the [end] match does not matter: when [begin] is
    found and [end] is found after it, appending any text leaves the
    result unchanged. *)
Theorem extract_content_ignores_tail (t u b e : str) (i k : Z) :
  first_occ b t 0 i -> i + len b <= k -> occurs_at e t k ->
  extract_content (t ++ u) b e = extract_content t b e.
Proof.
  intros Hi Hk Hok.
  pose proof (first_occ_nonneg _ _ _ _ Hi) as Hb.
  pose proof (len_nonneg b) as Hlb.
  destruct (occurs_first_occ e t (i + len b) k) as [j Hj];
    [lia | exact Hk | exact Hok |].
  pose proof Hi as (_ & Hbi & _). pose proof Hj as (Hle & Hej & _).
  destruct (occurs_at_span b e t i j Hbi Hej Hle) as (m & Hspan & Hlen).
  assert (Hs : forall s, occurs_at (b ++ m ++ e) s i ->
                         slice s i (j + len e) = b ++ m ++ e).
  { intros s Hsp. rewrite <- (slice_occurs_at _ _ _ Hsp). f_equal. lia. }
  transitivity (Some (b ++ m ++ e)).
  - apply (extract_case_functional (t ++ u) b e); [apply extract_content_case|].
    rewrite <- (Hs (t ++ u)) by (apply occurs_at_app_l, Hspan).
    apply ExBoth; apply first_occ_app; assumption.
  - symmetry.
    apply (extract_case_functional t b e); [apply extract_content_case|].
    rewrite <- (Hs t Hspan). apply ExBoth; assumption.
Qed.

Lemma extract_content_ignores_tail_witness :
  extract_content (lit "A B C D E" ++ lit " footer B C") (lit "B") (lit "C")
  = extract_content (lit "A B C D E") (lit "B") (lit "C").
Proof.
  apply (extract_content_ignores_tail _ _ _ _ 2 4).
  - apply first_occ_find; [vm_compute; split; discriminate | reflexivity | discriminate].
  - vm_compute. discriminate.
  - apply occurs_at_iff. reflexivity.
Defined.

(** X4: the first [end] match wins, so the result is the shortest span
    of the text that starts at the first [begin] match and has the form
    [begin ++ m ++ end]: it is a prefix of every such span. *)
Theorem extract_content_shortest_span (t b e m' : str) (i : Z) :
  first_occ b t 0 i -> occurs_at (b ++ m' ++ e) t i ->
  exists r, extract_content t b e = Some r /\
            is_suffix e r /\
            is_prefix r (b ++ m' ++ e) /\
            len r <= len (b ++ m' ++ e).
Proof.
  intros Hi Hsp.
  pose proof (len_nonneg m') as Hlm'.
  assert (He' : occurs_at e t (i + (len b + len m'))).
  { apply (occurs_at_inner e (b ++ m' ++ e) t i _ Hsp).
    exists (b ++ m'), []. split.
    - rewrite app_nil_r, <- app_assoc. reflexivity.
    - apply len_app. }
  destruct (extract_content_begin_present t b e) as [r Hr]; [exists i; apply Hi|].
  exists r. split; [exact Hr|].
  destruct (extract_content_shape t b e r Hr) as (i0 & Hi0 & Ho & Hcase).
  rewrite (first_occ_unique _ _ _ _ _ Hi0 Hi) in *. clear Hi0.
  destruct Hcase as [(m & Hm & Hj) | (Hno & _)].
  2:{ exfalso. apply (Hno (i + (len b + len m'))); [lia | exact He']. }
  assert (Hlen : len m <= len m').
  { destruct Hj as (_ & _ & Hmin). pose proof (len_nonneg m).
    destruct (Z_le_gt_dec (len m) (len m')) as [?|Hgt]; [assumption|].
    exfalso. apply (Hmin (i + (len b + len m'))); [lia | exact He']. }
  assert (Hlr : len r <= len (b ++ m' ++ e)).
  { rewrite Hm, !len_app. lia. }
  split; [|split; [|exact Hlr]].
  - exists (b ++ m). rewrite Hm, <- app_assoc. reflexivity.
  - exists (skipn (length r) (b ++ m' ++ e)).
    assert (Hfst : firstn (length r) (b ++ m' ++ e) = r).
    { rewrite (occurs_at_firstn _ _ _ Hsp), firstn_firstn.
      etransitivity; [|symmetry; exact (occurs_at_firstn _ _ _ Ho)].
      f_equal. unfold len in Hlr. lia. }
    rewrite <- Hfst at 1. symmetry. apply firstn_skipn.
Qed.

Lemma extract_content_shortest_span_witness :
  exists r, extract_content (lit "a-b-c-b") (lit "a") (lit "b") = Some r /\
            is_suffix (lit "b") r /\
            is_prefix r (lit "a" ++ lit "-b-c-" ++ lit "b") /\
            len r <= len (lit "a" ++ lit "-b-c-" ++ lit "b").
Proof.
  apply (extract_content_shortest_span (lit "a-b-c-b") (lit "a") (lit "b") (lit "-b-c-") 0).
  - apply first_occ_find; [vm_compute; split; discriminate | reflexivity | discriminate].
  - apply occurs_at_iff. reflexivity.
Defined.

(** X5: bounds.  A [begin] longer than the text is never found, so the
    result is [None] (in particular on an empty text with a non-empty
    [begin]); an empty [begin] is found at index 0 of every text, the
    empty one included, so the result is present and is a prefix of the
    text; and with [begin] the whole text the result is the whole text,
    whatever [end] is. *)
Theorem extract_content_bounds :
  (forall t b e : str, len t < len b -> extract_content t b e = None) /\
  (forall t e : str, exists r, extract_content t [] e = Some r /\ is_prefix r t) /\
  (forall t e : str, extract_content t t e = Some t).
Proof.
  split; [|split].
  - intros t b e Hlt. apply extract_content_begin_absent.
    intros [k Hk]. apply occurs_at_bounds in Hk. lia.
  - intros t e.
    destruct (extract_content_begin_present t [] e) as [r Hr].
    { exists 0, [], t. split; reflexivity. }
    exists r. split; [exact Hr|].
    destruct (extract_content_shape t [] e r Hr) as (i & Hi & Ho & _).
    assert (i = 0) as ->.
    { apply (first_occ_unique [] t 0); [exact Hi|]. apply (first_occ_head [] t). }
    destruct Ho as (pre & post & -> & Hpre).
    destruct pre; [|discriminate Hpre]. exists post. reflexivity.
  - intros t e.
    destruct (extract_content_begin_present t t e) as [r Hr].
    { exists 0. apply occurs_at_self. }
    rewrite Hr. f_equal.
    destruct (extract_content_shape t t e r Hr) as (i & _ & Ho & Hcase).
    assert (Hpre : is_prefix t r).
    { destruct Hcase as [(m & -> & _) | (_ & (x & ->) & _)];
        [exists (m ++ e) | exists x]; reflexivity. }
    destruct Hpre as [x Hx]. pose proof (occurs_at_bounds _ _ _ Ho) as Hb.
    rewrite Hx, len_app in Hb. pose proof (len_nonneg x) as Hlx.
    assert (Hx0 : len x = 0) by lia.
    destruct x; [rewrite app_nil_r in Hx; exact Hx | discriminate Hx0].
Qed.

Lemma extract_content_bounds_witness :
  extract_content [] (lit "START") (lit "END") = None.
Proof.
  apply (proj1 extract_content_bounds). vm_compute. reflexivity.
Defined.

(** ** The retry loop for an arbitrary budget *)



(** ** The orchestrator: oracle errors and the result *)

Lemma _begin_end_outcome (w : env) (self : AIScrape) (text : str) :
  outcome (_begin_end w self text)
  = match chat_completion w (model self) text with
    | inl x => inl x
    | inr content => json_begin_end w content
    end.
Proof.
  unfold _begin_end, outcome, bind, emit, lift.
  destruct (chat_completion w (model self) text) as [x|c]; [reflexivity|].
  destruct (json_begin_end w c); reflexivity.
Qed.

(** X7: when the oracle fails, in the completion call or in decoding its
    answer ([json.loads], the keys BEGIN and END), [scrape] raises that
    same exception after one fetch and one oracle call on the fetched
    text: there is no extraction attempt, no second oracle call and no
    fallback result. *)
Theorem scrape_oracle_error (w : env) (self : AIScrape) (url text : str) (r : Z) (x : exn) :
  outcome (get_url_text w url) = inr text ->
  chat_completion w (model self) text = inl x \/
  (exists content, chat_completion w (model self) text = inr content /\
                   json_begin_end w content = inl x) ->
  scrape w self url r = ([EvGet url; EvOracle (model self) text], inl x) /\
  attempts (events (scrape w self url r)) = 0 /\
  oracle_calls (events (scrape w self url r)) = 1.
Proof.
  intros Ht Hx.
  assert (Ho : outcome (_begin_end w self text) = inl x).
  { rewrite _begin_end_outcome.
    destruct Hx as [-> | (c & -> & ->)]; reflexivity. }
  rewrite scrape_run, Ht, Ho. repeat split.
Qed.

Lemma scrape_oracle_error_witness :
  scrape {| openai_client := None;
            requests_get := requests_get (demo_env ([], []));
            raise_for_status := raise_for_status (demo_env ([], []));
            get_text := fun html => html;
            chat_completion := fun _ _ => inr (lit "not json");
            json_begin_end := fun _ => inl (JSONDecodeError (lit "Expecting value")) |}
         gpt (lit "http://example.org") 3
  = ([EvGet (lit "http://example.org"); EvOracle (model gpt) page],
     inl (JSONDecodeError (lit "Expecting value"))).
Proof.
  refine (proj1 (scrape_oracle_error _ gpt (lit "http://example.org") page 3
                   (JSONDecodeError (lit "Expecting value")) _ _)).
  - reflexivity.
  - right. exists (lit "not json"). split; reflexivity.
Defined.



(** X9: the content [scrape] returns is taken verbatim from the fetched
    page: it occurs in the fetched text as one span, and it starts with
    the [begin] anchor the oracle gave.  The oracle contributes the
    anchors only, never text of its own. *)
Theorem scrape_content_verbatim (w : env) (self : AIScrape) (url : str) (r : Z) (c : str) :
  outcome (scrape w self url r) = inr (Some c) ->
  exists text b e,
    outcome (get_url_text w url) = inr text /\
    outcome (_begin_end w self text) = inr (b, e) /\
    occurs c text /\ is_prefix b c.
Proof.
  rewrite scrape_run.
  destruct (outcome (get_url_text w url)) as [x|text]; [discriminate|].
  destruct (outcome (_begin_end w self text)) as [x|[b e]] eqn:Ea; [discriminate|].
  destruct (0 <=? r); [|discriminate].
  unfold outcome at 1. simpl snd. intros [= Hc].
  exists text, b, e. split; [reflexivity|]. split; [exact Ea|].
  destruct (extract_content_shape text b e c Hc) as (i & _ & Ho & Hcase).
  split; [exists i; exact Ho|].
  destruct Hcase as [(m & -> & _) | (_ & (x & ->) & _)];
    [exists (m ++ e) | exists x]; reflexivity.
Qed.

Lemma scrape_content_verbatim_witness :
  exists text b e,
    outcome (get_url_text (demo_env (lit "START", lit "END")) (lit "u")) = inr text /\
    outcome (_begin_end (demo_env (lit "START", lit "END")) gpt text) = inr (b, e) /\
    occurs (lit "START Hello world END") text /\
    is_prefix b (lit "START Hello world END").
Proof.
  apply (scrape_content_verbatim (demo_env (lit "START", lit "END")) gpt (lit "u") 3).
  reflexivity.
Defined.

(** ** The command line *)

(** One run of [main], unfolded along the client constructor, the
    arguments and the result of [scrape]. *)
Lemma main_run (w : env) (argv : list str) :
  main w argv
  = match openai_client w with
    | Some x => ([], inl x)
    | None =>
        match argv with
        | [] => ([], inl (IndexError (lit "list index out of range")))
        | [argv0] =>
            ([EvPrint (lit "Usage: " ++ argv0 ++ lit " [url]")], inr (Some 1))
        | _ :: url :: _ =>
            match scrape w gpt url 3 with
            | (t, inl x) => (t, inl x)
            | (t, inr None) =>
                (t ++ [EvPrint (lit "Failed to extract content url: " ++ url)],
                 inr (Some 2))
            | (t, inr (Some c)) => (t ++ [EvPrint c], inr None)
            end
        end
    end.
Proof.
  unfold main, AIScrape_init, check.
  destruct (openai_client w) as [x|]; [reflexivity|].
  destruct argv as [|argv0 [|url rest]]; [reflexivity | reflexivity |].
  change (ret tt;; ret {| model := lit "gpt-3.5-turbo" |}) with (ret gpt).
  unfold bind at 1. unfold ret at 1. simpl nth_error. cbv iota beta.
  unfold bind at 1.
  destruct (scrape w gpt url 3) as [t [x|[c|]]]; reflexivity.
Qed.



(** X10: [main] builds the client before it looks at its arguments: when
    the client constructor raises, [main] raises that exception with
    nothing printed, not even the usage message of a call without URL,
    and no request made; the script then exits with status 1. *)
Theorem main_client_error (w : env) (argv : list str) (x : exn) :
  openai_client w = Some x ->
  main w argv = ([], inl x) /\ script w argv = ([], 1).
Proof.
  intros Hx. unfold script. rewrite main_run, Hx. split; reflexivity.
Qed.

Lemma main_client_error_witness :
  main {| openai_client := Some (OpenAIError (lit "api_key must be set"));
          requests_get := requests_get offline_env;
          raise_for_status := raise_for_status offline_env;
          get_text := get_text offline_env;
          chat_completion := chat_completion offline_env;
          json_begin_end := json_begin_end offline_env |}
       [lit "aiscrape.py"]
  = ([], inl (OpenAIError (lit "api_key must be set"))).
Proof.
  refine (proj1 (main_client_error _ [lit "aiscrape.py"]
                   (OpenAIError (lit "api_key must be set")) _)).
  reflexivity.
Defined.

(** X11: without a URL argument, and once the client is built, [main]
    prints the one line "Usage: <argv[0]> [url]" and returns 1, without
    any fetch, oracle call or extraction attempt; on an empty [sys.argv]
    the handler's own [sys.argv[0]] raises [IndexError] and nothing is
    printed. *)
Theorem main_missing_url (w : env) :
  openai_client w = None ->
  (forall argv0,
      main w [argv0]
      = ([EvPrint (lit "Usage: " ++ argv0 ++ lit " [url]")], inr (Some 1))) /\
  main w [] = ([], inl (IndexError (lit "list index out of range"))).
Proof.
  intros Hc. split; [intros argv0|]; rewrite main_run, Hc; reflexivity.
Qed.

Lemma main_missing_url_witness :
  main offline_env [lit "./aiscrape"]
  = ([EvPrint (lit "Usage: ./aiscrape [url]")], inr (Some 1)).
Proof.
  apply (proj1 (main_missing_url offline_env eq_refl)).
Defined.



